(** * Scheduler: a three-compartment task tracker

    Shallow embedding of [Scheduler.cpp].  A [Scheduler] owns three vectors
    of [Task]s (staged, active, finished) and an id counter; its mutating
    methods move one task between vectors and print one line on [std::cout],
    its [const] methods print a view of one vector. *)

From Stdlib Require Import ZArith Lia Sorted.
From stdpp Require Import base decidable list strings pretty.

Open Scope Z_scope.

(** ** Machine types *)

(** [int] is a 32-bit signed integer.  Values are kept in [Z]; the only
    arithmetic the program does on an [int] is [nextId++], written with the
    two's-complement wrap-around of the hardware.  (The C++ standard leaves
    an overflowing increment undefined; statements about id sequences say
    when the counter stays below [INT_MAX].) *)
Definition INT_MAX : Z := 2147483647.
Definition INT_MIN : Z := -2147483648.

Definition wrap_int (z : Z) : Z := (z - INT_MIN) mod 2 ^ 32 + INT_MIN.

(** [time_t]: seconds since the Unix epoch, as returned by [std::time]. *)
Abbreviation time_t := Z (only parsing).

(** A [double] (IEEE 754 binary64) has a 53-bit significand.  The double
    nearest to the integer [z], ties to even, is again an integer and is kept
    in [Z]: [z] itself up to magnitude 2^53, and beyond that [z] with the
    bits below the 53 leading ones rounded away. *)
Definition double_of_Z (z : Z) : Z :=
  let m := Z.abs z in
  if m <? 2 ^ 53 then z
  else
    let e := Z.log2 m - 52 in
    let q := m / 2 ^ e in
    let r := m mod 2 ^ e in
    let half := 2 ^ (e - 1) in
    let q' := if (r <? half) || ((r =? half) && Z.even q) then q else q + 1 in
    Z.sgn z * (q' * 2 ^ e).

(** [std::difftime(a, b)]: the difference [a - b] in seconds, as a [double].
    ([time_t] has 64 bits, so the difference is below 2^64 in magnitude and
    its double is finite.) *)
Definition difftime (a b : time_t) : Z := double_of_Z (a - b).

(** [static_cast<long long>(d)] of a double with integer value [d]: the value
    itself when it fits 64 bits.  (Outside that range the C++ standard
    leaves the cast undefined; written with the result of the x86-64
    conversion, the most negative [long long].) *)
Definition LLONG_MAX : Z := 9223372036854775807.
Definition LLONG_MIN : Z := -9223372036854775808.

Definition to_long_long (d : Z) : Z :=
  if (LLONG_MIN <=? d) && (d <=? LLONG_MAX) then d else LLONG_MIN.

(** ['\n'] *)
Definition endl : string := String (Ascii.ascii_of_nat 10) EmptyString.

(** ** Task *)

Inductive Status : Set := Staged | Active | Finished.

Record Task : Type := mkTask {
  id : Z;
  description : string;
  estimate : Z;
  status : Status;
  startTime : time_t;
  finishTime : time_t
}.

(** Modelled from the spec: [Task.h]/[Task.cpp] are not among the sources.
    The constructor "produces a Task in Staged state with both timestamps
    absent"; an absent timestamp is the [time_t] value 0, the value
    [Scheduler::printLog] tests the fields against. *)
Definition newTask (i : Z) (d : string) (e : Z) : Task :=
  {| id := i; description := d; estimate := e;
     status := Staged; startTime := 0; finishTime := 0 |}.

(** Modelled from the spec: [Task::markActive] "stamps startTime with the
    current wall-clock instant (seconds) and sets status to Active".  The
    instant read from the host clock is the argument [now]. *)
Definition markActive (now : time_t) (t : Task) : Task :=
  {| id := id t; description := description t; estimate := estimate t;
     status := Active; startTime := now; finishTime := finishTime t |}.

(** Modelled from the spec: [Task::markFinished] "stamps finishTime with the
    current wall-clock instant and sets status to Finished". *)
Definition markFinished (now : time_t) (t : Task) : Task :=
  {| id := id t; description := description t; estimate := estimate t;
     status := Finished; startTime := startTime t; finishTime := now |}.

(** ** Scheduler state *)

Record Scheduler : Type := mkScheduler {
  nextId : Z;
  stagedTasks : list Task;
  activeTasks : list Task;
  finishedLog : list Task
}.

(** [Scheduler::Scheduler() : nextId(1) {}] *)
Definition newScheduler : Scheduler :=
  {| nextId := 1; stagedTasks := []; activeTasks := []; finishedLog := [] |}.

(** [findTaskById]: linear scan from the head; the pointer to the first
    element whose id matches is its index in the vector, [nullptr] is
    [None]. *)
Fixpoint findTaskById (i : Z) (l : list Task) : option nat :=
  match l with
  | [] => None
  | t :: l' => if decide (id t = i) then Some 0%nat
               else S <$> findTaskById i l'
  end.

(** The erase/remove_if idiom with the lambda [x.id == id]: every element
    with that id goes, the others keep their order. *)
Definition eraseById (i : Z) (l : list Task) : list Task :=
  filter (λ x, id x ≠ i) l.

(** ** Mutating methods

    Each returns the new state and the text written to [std::cout]. *)

Definition addedMsg (i : Z) : string :=
  "Added task [#" +:+ pretty i +:+ "] to staged tasks." +:+ endl.
Definition stagedMissMsg (i : Z) : string :=
  "Task [#" +:+ pretty i +:+ "] not found in staged tasks." +:+ endl.
Definition startedMsg (i : Z) : string :=
  "Started task [#" +:+ pretty i +:+ "]." +:+ endl.
Definition activeMissMsg (i : Z) : string :=
  "Task [#" +:+ pretty i +:+ "] not found in active tasks." +:+ endl.
Definition finishedMsg (i : Z) : string :=
  "Finished task [#" +:+ pretty i +:+ "]." +:+ endl.

Definition addTask (d : string) (e : Z) (s : Scheduler) : Scheduler * string :=
  let t := newTask (nextId s) d e in
  ({| nextId := wrap_int (nextId s + 1);
      stagedTasks := stagedTasks s ++ [t];
      activeTasks := activeTasks s;
      finishedLog := finishedLog s |},
   addedMsg (id t)).

(** [now] is the reading of the host clock during the call; it is consulted
    (by [markActive]) only when the task is found.  The task is marked in
    place in [stagedTasks], the marked element [*t] is copied to the back of
    [activeTasks], then erased from [stagedTasks].  The pointer comes from
    [findTaskById], so it is in range and [staged1 !! p] is an element. *)
Definition startTask (i : Z) (now : time_t) (s : Scheduler) : Scheduler * string :=
  match findTaskById i (stagedTasks s) with
  | None => (s, stagedMissMsg i)
  | Some p =>
      let staged1 := alter (markActive now) p (stagedTasks s) in
      let active1 := activeTasks s ++ option_list (staged1 !! p) in
      ({| nextId := nextId s;
          stagedTasks := eraseById i staged1;
          activeTasks := active1;
          finishedLog := finishedLog s |},
       startedMsg i)
  end.

Definition finishTask (i : Z) (now : time_t) (s : Scheduler) : Scheduler * string :=
  match findTaskById i (activeTasks s) with
  | None => (s, activeMissMsg i)
  | Some p =>
      let active1 := alter (markFinished now) p (activeTasks s) in
      let finished1 := finishedLog s ++ option_list (active1 !! p) in
      ({| nextId := nextId s;
          stagedTasks := stagedTasks s;
          activeTasks := eraseById i active1;
          finishedLog := finished1 |},
       finishedMsg i)
  end.

(** ** Read-only methods

    The [const] methods return only the text they print.  [Task::getDetails]
    is not among the sources and its format is not fixed by the spec, so the
    rendering is a parameter. *)

Section Views.
Variable getDetails : Task → string.

(** The range-for loop [for (const auto& t : v) cout << t.getDetails() << "\n"]
    continuing the stream [out]. *)
Definition printAll (out : string) (v : list Task) : string :=
  foldl (λ o t, o +:+ getDetails t +:+ endl) out v.

Definition viewStagedTasks (s : Scheduler) : string :=
  let out := "--- Staged Tasks (" +:+ pretty (length (stagedTasks s)) +:+ ") ---" +:+ endl in
  if decide (stagedTasks s = []) then out +:+ "(none)" +:+ endl
  else printAll out (stagedTasks s).

Definition viewActiveTasks (s : Scheduler) : string :=
  let out := "--- Active Tasks (" +:+ pretty (length (activeTasks s)) +:+ ") ---" +:+ endl in
  if decide (activeTasks s = []) then out +:+ "(none)" +:+ endl
  else printAll out (activeTasks s).

(** One iteration of the loop of [printLog], continuing the stream [out].
    C++ [/] and [%] on [long long] truncate toward zero: [Z.quot], [Z.rem]. *)
Definition printEntry (out : string) (t : Task) : string :=
  let out := out +:+ getDetails t in
  let out :=
    if negb (startTime t =? 0) && negb (finishTime t =? 0) then
      let seconds := to_long_long (difftime (finishTime t) (startTime t)) in
      let minutes := seconds ÷ 60 in
      let rem := Z.rem seconds 60 in
      out +:+ " | Actual: " +:+ pretty seconds +:+ " s (" +:+ pretty minutes
          +:+ " m " +:+ pretty rem +:+ " s)"
    else out in
  out +:+ endl.

Definition printLog (s : Scheduler) : string :=
  let out := "--- Finished Tasks Log (" +:+ pretty (length (finishedLog s)) +:+ ") ---" +:+ endl in
  if decide (finishedLog s = []) then out +:+ "(none)" +:+ endl
  else foldl printEntry out (finishedLog s).
End Views.

(** ** Driving the Scheduler

    The console loop calls the six public methods one at a time.  A command
    is one such call together with its arguments; [cmd_start] and
    [cmd_finish] also carry the wall-clock reading at the time of the call. *)

Inductive Command : Type :=
  | cmd_add (d : string) (e : Z)
  | cmd_start (i : Z) (now : time_t)
  | cmd_finish (i : Z) (now : time_t)
  | cmd_staged
  | cmd_active
  | cmd_log.

(** The state after one call.  The three views are [const] methods. *)
Definition step (c : Command) (s : Scheduler) : Scheduler :=
  match c with
  | cmd_add d e => (addTask d e s).1
  | cmd_start i now => (startTask i now s).1
  | cmd_finish i now => (finishTask i now s).1
  | cmd_staged | cmd_active | cmd_log => s
  end.

(** The text one call prints. *)
Definition emit (getDetails : Task → string) (c : Command) (s : Scheduler) : string :=
  match c with
  | cmd_add d e => (addTask d e s).2
  | cmd_start i now => (startTask i now s).2
  | cmd_finish i now => (finishTask i now s).2
  | cmd_staged => viewStagedTasks getDetails s
  | cmd_active => viewActiveTasks getDetails s
  | cmd_log => printLog getDetails s
  end.

Definition run (cs : list Command) (s : Scheduler) : Scheduler :=
  foldl (λ s c, step c s) s cs.

(** Number of [addTask] calls in a command sequence. *)
Fixpoint adds (cs : list Command) : nat :=
  match cs with
  | [] => 0
  | cmd_add _ _ :: cs' => S (adds cs')
  | _ :: cs' => adds cs'
  end.

(** Wall-clock readings carried by a command sequence, oldest first. *)
Fixpoint readings (cs : list Command) : list time_t :=
  match cs with
  | [] => []
  | cmd_start _ now :: cs' | cmd_finish _ now :: cs' => now :: readings cs'
  | _ :: cs' => readings cs'
  end.

(** ** Invariants *)

Definition ids (l : list Task) : list Z := id <$> l.

(** P2: no id is in two compartments at once. *)
Definition disjoint_ids (s : Scheduler) : Prop :=
  ∀ i, (i ∈ ids (stagedTasks s) → i ∉ ids (activeTasks s))
     ∧ (i ∈ ids (stagedTasks s) → i ∉ ids (finishedLog s))
     ∧ (i ∈ ids (activeTasks s) → i ∉ ids (finishedLog s)).

(** P3: the status of a task names the compartment holding it. *)
Definition status_coherent (s : Scheduler) : Prop :=
  (∀ t, t ∈ stagedTasks s → status t = Staged)
  ∧ (∀ t, t ∈ activeTasks s → status t = Active)
  ∧ (∀ t, t ∈ finishedLog s → status t = Finished).

(** Every id the Scheduler holds, compartment by compartment. *)
Definition allIds (s : Scheduler) : list Z :=
  ids (stagedTasks s) ++ ids (activeTasks s) ++ ids (finishedLog s).

(** The inductive invariant: ids are pairwise distinct over the whole
    Scheduler (P1) and below the counter, the counter is a positive [int],
    and statuses are coherent. *)
Record wf (s : Scheduler) : Prop := {
  wf_nodup : NoDup (allIds s);
  wf_below : ∀ i, i ∈ allIds s → 1 ≤ i < nextId s;
  wf_next : 1 ≤ nextId s ≤ INT_MAX;
  wf_status : status_coherent s
}.

(** P5 for one state: started tasks were started no later than [hi], and
    finished tasks finished no earlier than they started. *)
Definition timed (hi : time_t) (s : Scheduler) : Prop :=
  (∀ t, t ∈ activeTasks s → startTime t ≤ hi)
  ∧ (∀ t, t ∈ finishedLog s → startTime t ≤ finishTime t).

(** The ids handed out by the [addTask] calls of a command sequence, in call
    order: each is read off the Task at the tail of [stagedTasks] right
    after the call. *)
Fixpoint issued (cs : list Command) (s : Scheduler) : list Z :=
  match cs with
  | [] => []
  | c :: cs' =>
      match c with
      | cmd_add _ _ => option_list (id <$> last (stagedTasks (step c s)))
      | _ => []
      end ++ issued cs' (step c s)
  end.

(** Everything a command sequence prints, in order. *)
Fixpoint transcript (getDetails : Task → string) (cs : list Command) (s : Scheduler) : string :=
  match cs with
  | [] => EmptyString
  | c :: cs' => emit getDetails c s +:+ transcript getDetails cs' (step c s)
  end.

(** ** The finished-task log as the spec words it

    A header with the count; per task the details, then, when both
    timestamps are present (nonzero), the segment built from the elapsed
    seconds, their quotient by 60 and the remainder. *)

Definition logHeader (n : nat) : string :=
  "--- Finished Tasks Log (" +:+ pretty n +:+ ") ---" +:+ endl.




(** ** The finished-task log as the code prints it

    The segment is built from the seconds the code computes: the [double]
    returned by [std::difftime], cast to [long long]. *)

Definition segmentOf (secs : Z) : string :=
  " | Actual: " +:+ pretty secs +:+ " s (" +:+ pretty (secs ÷ 60)
    +:+ " m " +:+ pretty (Z.rem secs 60) +:+ " s)".

Definition printedSegment (t : Task) : string :=
  segmentOf (to_long_long (difftime (finishTime t) (startTime t))).

Definition printedBody (getDetails : Task → string) (l : list Task) : string :=
  foldr (λ t rest,
           getDetails t
             +:+ (if decide (startTime t ≠ 0 ∧ finishTime t ≠ 0)
                  then printedSegment t else EmptyString)
             +:+ endl +:+ rest)
        EmptyString l.

(** ** Further invariants and closed forms *)

(** Tasks not yet started carry no stamp, tasks not yet finished carry no
    finish stamp (0 is the absent value). *)
Definition unstamped (s : Scheduler) : Prop :=
  (∀ t, t ∈ stagedTasks s → startTime t = 0 ∧ finishTime t = 0)
  ∧ (∀ t, t ∈ activeTasks s → finishTime t = 0).

(** Every stamp taken so far is a nonzero reading. *)
Definition stamped (s : Scheduler) : Prop :=
  (∀ t, t ∈ activeTasks s → startTime t ≠ 0)
  ∧ (∀ t, t ∈ finishedLog s → startTime t ≠ 0 ∧ finishTime t ≠ 0).

(** An id that has left the staged compartment. *)
Definition begun (i : Z) (s : Scheduler) : Prop :=
  i ∈ ids (activeTasks s) ∨ i ∈ ids (finishedLog s).

(** The lines of a view: one per Task, in vector order. *)
Definition viewBody (getDetails : Task → string) (l : list Task) : string :=
  foldr (λ t rest, getDetails t +:+ endl +:+ rest) EmptyString l.

(** ** Sessions from the spec's scenarios *)

(** [add "a" 5; add "b" 10]: two staged tasks, ids 1 and 2. *)
Definition two_added : list Command := [cmd_add "a" 5; cmd_add "b" 10].

(** The full lifecycle of task 1, started at second 100, finished at 161. *)
Definition lifecycle : list Command :=
  two_added ++ [cmd_start 1 100; cmd_finish 1 161; cmd_log; cmd_staged; cmd_active].

(** * Properties *)

(** ** Lookup and erasure *)

Lemma findTaskById_None i l : findTaskById i l = None ↔ i ∉ ids l.
Proof.
  unfold ids. induction l as [|t l IH]; simpl.
  - split; [intros _; apply not_elem_of_nil | done].
  - rewrite not_elem_of_cons. case_decide as E.
    + split; [done | intros [? _]; congruence].
    + destruct (findTaskById i l); simpl.
      * split; [done | intros [_ H]; by apply IH in H].
      * split; [intros _; split; [congruence | by apply IH] | done].
Qed.

Lemma findTaskById_Some i l p :
  findTaskById i l = Some p →
  ∃ t, l !! p = Some t ∧ id t = i
       ∧ ∀ q t', (q < p)%nat → l !! q = Some t' → id t' ≠ i.
Proof.
  revert p. induction l as [|t l IH]; intros p; simpl; [done|].
  case_decide as E.
  - intros [= <-]. exists t. repeat split; [done | intros; lia].
  - destruct (findTaskById i l) as [p'|]; simpl; [|done].
    intros [= <-]. destruct (IH p' eq_refl) as (t0 & Hl & Hi & Hfirst).
    exists t0. repeat split; [done..|].
    intros [|q] t' Hq; simpl; [by intros [= <-] | apply Hfirst; lia].
Qed.

Lemma findTaskById_is_Some i l : i ∈ ids l → is_Some (findTaskById i l).
Proof.
  intros Hin. destruct (findTaskById i l) eqn:E; [by eexists|].
  by apply findTaskById_None in E.
Qed.

Lemma elem_of_eraseById t i l : t ∈ eraseById i l ↔ id t ≠ i ∧ t ∈ l.
Proof. unfold eraseById. by rewrite list_elem_of_filter. Qed.

Lemma ids_eraseById i l : ids (eraseById i l) = filter (λ j, j ≠ i) (ids l).
Proof.
  unfold ids, eraseById. induction l as [|t l IH]; [done|].
  rewrite fmap_cons, !filter_cons. simpl.
  destruct (decide (id t ≠ i)); [rewrite fmap_cons|]; by rewrite IH.
Qed.

Lemma not_elem_of_ids_eraseById i l : i ∉ ids (eraseById i l).
Proof. rewrite ids_eraseById, list_elem_of_filter. by intros [? _]. Qed.

Lemma eraseById_absent i l : i ∉ ids l → eraseById i l = l.
Proof.
  unfold ids, eraseById. induction l as [|t l IH]; [done|].
  rewrite fmap_cons, not_elem_of_cons, filter_cons. intros [Hne Hl].
  rewrite decide_True by congruence. by rewrite IH.
Qed.

(** Marking the found element in place does not change what the erasure
    leaves: the marked element is erased either way. *)
Lemma eraseById_alter f i p l t :
  l !! p = Some t → id t = i → id (f t) = i →
  eraseById i (alter f p l) = eraseById i l.
Proof.
  unfold eraseById. revert p. induction l as [|x l IH]; intros [|p]; simpl; try done.
  - intros [= ->] Ht Hf. rewrite !filter_cons.
    rewrite !decide_False; [done | by intros H; apply H..].
  - intros Hl Ht Hf. change (list_alter f p l) with (alter f p l).
    rewrite !filter_cons. by rewrite (IH p Hl Ht Hf).
Qed.

(** Erasing the one occurrence of a distinct id. *)
Lemma ids_eraseById_perm i l :
  NoDup (ids l) → i ∈ ids l → ids l ≡ₚ i :: ids (eraseById i l).
Proof.
  unfold ids, eraseById. induction l as [|t l IH]; simpl.
  - intros _ H. by apply elem_of_nil in H.
  - rewrite NoDup_cons, elem_of_cons, filter_cons. intros [Hnotin Hnd] Hin.
    destruct (decide (id t ≠ i)) as [Hne|Heq].
    + destruct Hin as [->|Hin]; [done|].
      rewrite fmap_cons, (IH Hnd Hin). apply Permutation_swap.
    + assert (id t = i) as E by (destruct (decide (id t = i)); [done | by destruct Heq]).
      rewrite E in *. f_equiv. change (filter _ l) with (eraseById i l).
      by rewrite eraseById_absent.
Qed.

(** ** The two transitions, found and not found *)

Lemma startTask_miss i now s :
  i ∉ ids (stagedTasks s) → startTask i now s = (s, stagedMissMsg i).
Proof. intros H. apply findTaskById_None in H. unfold startTask. by rewrite H. Qed.

Lemma startTask_hit i now s :
  i ∈ ids (stagedTasks s) →
  ∃ p t, findTaskById i (stagedTasks s) = Some p
       ∧ stagedTasks s !! p = Some t ∧ id t = i
       ∧ startTask i now s =
           ({| nextId := nextId s;
               stagedTasks := eraseById i (stagedTasks s);
               activeTasks := activeTasks s ++ [markActive now t];
               finishedLog := finishedLog s |}, startedMsg i).
Proof.
  intros Hin. destruct (findTaskById_is_Some _ _ Hin) as [p Hp].
  destruct (findTaskById_Some _ _ _ Hp) as (t & Hl & Hi & _).
  exists p, t. repeat split; [done..|].
  unfold startTask. rewrite Hp, list_lookup_alter_eq, Hl. simpl.
  by rewrite (eraseById_alter _ _ _ _ t).
Qed.

Lemma finishTask_miss i now s :
  i ∉ ids (activeTasks s) → finishTask i now s = (s, activeMissMsg i).
Proof. intros H. apply findTaskById_None in H. unfold finishTask. by rewrite H. Qed.

Lemma finishTask_hit i now s :
  i ∈ ids (activeTasks s) →
  ∃ p t, findTaskById i (activeTasks s) = Some p
       ∧ activeTasks s !! p = Some t ∧ id t = i
       ∧ finishTask i now s =
           ({| nextId := nextId s;
               stagedTasks := stagedTasks s;
               activeTasks := eraseById i (activeTasks s);
               finishedLog := finishedLog s ++ [markFinished now t] |}, finishedMsg i).
Proof.
  intros Hin. destruct (findTaskById_is_Some _ _ Hin) as [p Hp].
  destruct (findTaskById_Some _ _ _ Hp) as (t & Hl & Hi & _).
  exists p, t. repeat split; [done..|].
  unfold finishTask. rewrite Hp, list_lookup_alter_eq, Hl. simpl.
  by rewrite (eraseById_alter _ _ _ _ t).
Qed.

(** Case split on whether the id is found; in the found case the call is
    replaced by the state it builds from the found Task [t]. *)
Ltac startTask_cases i now s t Hin Hl Hi :=
  let p := fresh "p" in
  destruct (decide (i ∈ ids (stagedTasks s))) as [Hin|Hin];
  [ destruct (startTask_hit i now s Hin) as (p & t & _ & Hl & Hi & ->)
  | rewrite (startTask_miss i now s Hin) ].

Ltac finishTask_cases i now s t Hin Hl Hi :=
  let p := fresh "p" in
  destruct (decide (i ∈ ids (activeTasks s))) as [Hin|Hin];
  [ destruct (finishTask_hit i now s Hin) as (p & t & _ & Hl & Hi & ->)
  | rewrite (finishTask_miss i now s Hin) ].

(** ** Preservation of the invariant *)

Lemma wrap_int_id z : INT_MIN ≤ z ≤ INT_MAX → wrap_int z = z.
Proof.
  unfold wrap_int, INT_MIN, INT_MAX. intros H.
  rewrite Z.mod_small; lia.
Qed.

Lemma ids_snoc l t : ids (l ++ [t]) = ids l ++ [id t].
Proof. unfold ids. by rewrite fmap_app. Qed.

Lemma wf_disjoint s : wf s → disjoint_ids s.
Proof.
  intros [Hnd _ _ _] i. unfold allIds in Hnd.
  apply NoDup_app in Hnd as (_ & Hsa & Hnd).
  apply NoDup_app in Hnd as (_ & Haf & _).
  repeat split.
  - intros Hs Ha. apply (Hsa i Hs). apply elem_of_app. by left.
  - intros Hs Hf. apply (Hsa i Hs). apply elem_of_app. by right.
  - intros Ha Hf. by apply (Haf i Ha).
Qed.

Lemma wf_newScheduler : wf newScheduler.
Proof.
  split; simpl.
  - apply NoDup_nil_2.
  - intros i H. by apply elem_of_nil in H.
  - unfold INT_MAX. lia.
  - repeat split; intros t H; by apply elem_of_nil in H.
Qed.

Lemma allIds_addTask d e s :
  allIds (addTask d e s).1 ≡ₚ nextId s :: allIds s.
Proof.
  unfold allIds; simpl. rewrite ids_snoc; simpl.
  rewrite <- app_assoc. simpl. by rewrite <- Permutation_middle.
Qed.

Lemma wf_addTask d e s : wf s → nextId s < INT_MAX → wf (addTask d e s).1.
Proof.
  intros [Hnd Hlt Hnext [Hs [Ha Hf]]] Hmax.
  assert (wrap_int (nextId s + 1) = nextId s + 1) as Hw
    by (apply wrap_int_id; unfold INT_MIN; lia).
  split.
  - rewrite allIds_addTask. apply NoDup_cons. split; [|done].
    intros Hin. apply Hlt in Hin. lia.
  - intros i. rewrite allIds_addTask, elem_of_cons. simpl. rewrite Hw.
    intros [->|Hin]; [lia | apply Hlt in Hin; lia].
  - simpl. rewrite Hw. lia.
  - repeat split; simpl; [|done..].
    intros t [Hin| ->%list_elem_of_singleton]%elem_of_app; [by apply Hs | done].
Qed.

Lemma allIds_startTask i now s :
  NoDup (allIds s) → allIds (startTask i now s).1 ≡ₚ allIds s.
Proof.
  intros Hnd. startTask_cases i now s t Hin Hl Hi; [|done].
  unfold allIds in *; simpl. apply NoDup_app in Hnd as (Hs & _ & _).
  rewrite ids_snoc, (ids_eraseById_perm i (stagedTasks s) Hs Hin); simpl.
  rewrite Hi, <- (app_assoc (ids (activeTasks s))); simpl.
  by rewrite <- !Permutation_middle.
Qed.

Lemma allIds_finishTask i now s :
  NoDup (allIds s) → allIds (finishTask i now s).1 ≡ₚ allIds s.
Proof.
  intros Hnd. finishTask_cases i now s t Hin Hl Hi; [|done].
  unfold allIds in *; simpl. apply NoDup_app in Hnd as (_ & _ & Hnd).
  apply NoDup_app in Hnd as (Ha & _ & _).
  rewrite ids_snoc, (ids_eraseById_perm i (activeTasks s) Ha Hin); simpl.
  rewrite Hi. f_equiv. rewrite app_assoc. by rewrite <- Permutation_middle, app_nil_r.
Qed.

Lemma nextId_startTask i now s : nextId (startTask i now s).1 = nextId s.
Proof. unfold startTask. by destruct (findTaskById i (stagedTasks s)). Qed.

Lemma nextId_finishTask i now s : nextId (finishTask i now s).1 = nextId s.
Proof. unfold finishTask. by destruct (findTaskById i (activeTasks s)). Qed.

Lemma status_startTask i now s :
  status_coherent s → status_coherent (startTask i now s).1.
Proof.
  intros (Hs & Ha & Hf). startTask_cases i now s t Hin Hl Hi; [|done].
  repeat split; simpl; [| |done].
  - intros x [_ Hx]%elem_of_eraseById. by apply Hs.
  - intros x [Hx| ->%list_elem_of_singleton]%elem_of_app; [by apply Ha | done].
Qed.

Lemma status_finishTask i now s :
  status_coherent s → status_coherent (finishTask i now s).1.
Proof.
  intros (Hs & Ha & Hf). finishTask_cases i now s t Hin Hl Hi; [|done].
  repeat split; simpl; [done| |].
  - intros x [_ Hx]%elem_of_eraseById. by apply Ha.
  - intros x [Hx| ->%list_elem_of_singleton]%elem_of_app; [by apply Hf | done].
Qed.

Lemma wf_startTask i now s : wf s → wf (startTask i now s).1.
Proof.
  intros [Hnd Hlt Hnext Hst]. split.
  - by rewrite allIds_startTask.
  - intros j. rewrite allIds_startTask, nextId_startTask by done. apply Hlt.
  - by rewrite nextId_startTask.
  - by apply status_startTask.
Qed.

Lemma wf_finishTask i now s : wf s → wf (finishTask i now s).1.
Proof.
  intros [Hnd Hlt Hnext Hst]. split.
  - by rewrite allIds_finishTask.
  - intros j. rewrite allIds_finishTask, nextId_finishTask by done. apply Hlt.
  - by rewrite nextId_finishTask.
  - by apply status_finishTask.
Qed.

Lemma run_cons c cs s : run (c :: cs) s = run cs (step c s).
Proof. reflexivity. Qed.

Lemma run_app cs1 cs2 s : run (cs1 ++ cs2) s = run cs2 (run cs1 s).
Proof. unfold run. apply foldl_app. Qed.

Lemma adds_cons c cs : adds (c :: cs) = (adds [c] + adds cs)%nat.
Proof. by destruct c. Qed.

Lemma wf_step c s :
  wf s → nextId s + Z.of_nat (adds [c]) ≤ INT_MAX →
  wf (step c s) ∧ nextId (step c s) = nextId s + Z.of_nat (adds [c]).
Proof.
  intros Hwf Hle. destruct c; simpl in *.
  - split; [apply wf_addTask; [done | lia]|].
    apply wrap_int_id. destruct (wf_next s Hwf). unfold INT_MIN. lia.
  - rewrite nextId_startTask. split; [by apply wf_startTask | lia].
  - rewrite nextId_finishTask. split; [by apply wf_finishTask | lia].
  - split; [done | lia].
  - split; [done | lia].
  - split; [done | lia].
Qed.

(** Along a run that issues no more ids than [INT_MAX - nextId] allows, the
    invariant is kept and the counter counts the [addTask] calls. *)
Lemma wf_run cs s :
  wf s → nextId s + Z.of_nat (adds cs) ≤ INT_MAX →
  wf (run cs s) ∧ nextId (run cs s) = nextId s + Z.of_nat (adds cs).
Proof.
  revert s. induction cs as [|c cs IH]; intros s Hwf Hle.
  - simpl. split; [done | lia].
  - rewrite run_cons. rewrite adds_cons in *.
    destruct (wf_step c s Hwf) as [Hwf' Hn]; [lia|].
    destruct (IH (step c s) Hwf') as [Hwf'' Hn'']; [lia|].
    split; [done | lia].
Qed.

(** ** startTask *)

(** C1 — startTask on a staged id.  In a Scheduler whose compartments are
    disjoint on id, if some staged Task has id [i] then [startTask i] takes
    the staged Task [t] with that id, marks it Active with [startTime] the
    clock reading, appends the marked Task to the tail of [activeTasks] and
    erases it from [stagedTasks]; afterwards id [i] occurs in neither
    [stagedTasks] nor [finishedLog], and in [activeTasks] only at the tail. *)
Theorem startTask_moves_staged_to_active i now s :
  disjoint_ids s →
  i ∈ ids (stagedTasks s) →
  ∃ p t,
    findTaskById i (stagedTasks s) = Some p
    ∧ stagedTasks s !! p = Some t ∧ id t = i
    ∧ status (markActive now t) = Active
    ∧ startTime (markActive now t) = now
    ∧ id (markActive now t) = i
    ∧ activeTasks (startTask i now s).1 = activeTasks s ++ [markActive now t]
    ∧ stagedTasks (startTask i now s).1 = eraseById i (stagedTasks s)
    ∧ finishedLog (startTask i now s).1 = finishedLog s
    ∧ nextId (startTask i now s).1 = nextId s
    ∧ (i ∉ ids (stagedTasks (startTask i now s).1))
    ∧ (i ∉ ids (activeTasks s))
    ∧ (i ∉ ids (finishedLog (startTask i now s).1)).
Proof.
  intros Hdis Hin. destruct (Hdis i) as (Hsa & Hsf & _).
  destruct (startTask_hit i now s Hin) as (p & t & Hp & Hl & Hi & ->).
  exists p, t. simpl. repeat split; try done.
  - apply not_elem_of_ids_eraseById.
  - by apply Hsa.
  - by apply Hsf.
Qed.

(** C4 — startTask on an unknown id.  If no staged Task has id [i], the call
    returns the state it was given and prints the not-found notice.  In
    general a call either does exactly that, or finds a staged Task with the
    id, applies the whole transition and prints the confirmation: there is
    no partial outcome.  The same holds of [finishTask] on [activeTasks]. *)
Theorem startTask_unknown_id_changes_nothing i now s :
  ((∀ t, t ∈ stagedTasks s → id t ≠ i) →
     startTask i now s = (s, stagedMissMsg i))
  ∧ (startTask i now s = (s, stagedMissMsg i)
     ∨ ∃ t, t ∈ stagedTasks s ∧ id t = i
          ∧ startTask i now s =
              ({| nextId := nextId s;
                  stagedTasks := eraseById i (stagedTasks s);
                  activeTasks := activeTasks s ++ [markActive now t];
                  finishedLog := finishedLog s |}, startedMsg i))
  ∧ (finishTask i now s = (s, activeMissMsg i)
     ∨ ∃ t, t ∈ activeTasks s ∧ id t = i
          ∧ finishTask i now s =
              ({| nextId := nextId s;
                  stagedTasks := stagedTasks s;
                  activeTasks := eraseById i (activeTasks s);
                  finishedLog := finishedLog s ++ [markFinished now t] |},
               finishedMsg i)).
Proof.
  split; [|split].
  - intros Hno. apply startTask_miss. unfold ids.
    intros (t & -> & Ht)%list_elem_of_fmap. by apply (Hno t).
  - destruct (decide (i ∈ ids (stagedTasks s))) as [Hin|Hout].
    + right. destruct (startTask_hit i now s Hin) as (p & t & _ & Hl & Hi & E).
      exists t. repeat split; [by eapply list_elem_of_lookup_2 | done..].
    + left. by apply startTask_miss.
  - destruct (decide (i ∈ ids (activeTasks s))) as [Hin|Hout].
    + right. destruct (finishTask_hit i now s Hin) as (p & t & _ & Hl & Hi & E).
      exists t. repeat split; [by eapply list_elem_of_lookup_2 | done..].
    + left. by apply finishTask_miss.
Qed.

(** C8 — startTask twice.  When some staged Task has id [i], the first
    [startTask i] prints the confirmation and the second one returns the
    state the first one left, printing only the not-found notice: the two
    calls in a row leave the state of the first call alone. *)
Theorem startTask_twice i now1 now2 s :
  i ∈ ids (stagedTasks s) →
  (startTask i now1 s).2 = startedMsg i
  ∧ startTask i now2 (startTask i now1 s).1
    = ((startTask i now1 s).1, stagedMissMsg i)
  ∧ run [cmd_start i now1; cmd_start i now2] s = run [cmd_start i now1] s.
Proof.
  intros Hin. destruct (startTask_hit i now1 s Hin) as (p & t & _ & _ & _ & E).
  assert (startTask i now2 (startTask i now1 s).1
          = ((startTask i now1 s).1, stagedMissMsg i)) as E2.
  { apply startTask_miss. rewrite E. simpl. apply not_elem_of_ids_eraseById. }
  split; [by rewrite E | split; [done|]].
  unfold run. simpl. by rewrite E2.
Qed.

(** ** finishTask *)

(** C5 — finishTask on a staged id.  If Task [t] with id [i] is staged and no
    active Task has id [i], [finishTask i] returns the state unchanged and
    prints the not-found notice; [t] is still in [stagedTasks], the same
    value, so with the status and the timestamps it had. *)
Theorem finishTask_on_staged_changes_nothing i now s t :
  t ∈ stagedTasks s → id t = i →
  (∀ a, a ∈ activeTasks s → id a ≠ i) →
  finishTask i now s = (s, activeMissMsg i)
  ∧ t ∈ stagedTasks (finishTask i now s).1
  ∧ stagedTasks (finishTask i now s).1 = stagedTasks s
  ∧ activeTasks (finishTask i now s).1 = activeTasks s
  ∧ finishedLog (finishTask i now s).1 = finishedLog s.
Proof.
  intros Ht Hi Hno.
  assert (finishTask i now s = (s, activeMissMsg i)) as ->; [|done].
  apply finishTask_miss. unfold ids.
  intros (a & E & Ha)%list_elem_of_fmap. by apply (Hno a).
Qed.

(** ** Invariants of a run *)

(** C2 — disjointness and status coherence.  After any sequence of public
    operations on a fresh Scheduler that calls [addTask] fewer than
    [INT_MAX] times (so that [nextId++] never overflows), no id is in two
    compartments, and every Task has the status of its compartment. *)
Theorem run_disjoint_and_status_coherent cs :
  Z.of_nat (adds cs) < INT_MAX →
  disjoint_ids (run cs newScheduler) ∧ status_coherent (run cs newScheduler).
Proof.
  intros Hlt. destruct (wf_run cs newScheduler wf_newScheduler) as [Hwf _].
  - simpl. lia.
  - split; [by apply wf_disjoint | by destruct Hwf].
Qed.

(** ** addTask *)

Lemma issued_from cs s (n : nat) :
  nextId s = Z.of_nat n → Z.of_nat n + Z.of_nat (adds cs) ≤ INT_MAX →
  issued cs s = Z.of_nat <$> seq n (adds cs).
Proof.
  revert s n. induction cs as [|c cs IH]; intros s n Hn Hle; [done|].
  destruct c; simpl in *.
  - rewrite last_snoc. simpl. rewrite Hn at 1. f_equal.
    apply (IH _ (S n)); simpl; [|lia].
    rewrite Hn, wrap_int_id; unfold INT_MIN; lia.
  - apply IH; [by rewrite nextId_startTask | done].
  - apply IH; [by rewrite nextId_finishTask | done].
  - by apply IH.
  - by apply IH.
  - by apply IH.
Qed.

(** C3 — addTask and the id sequence.  When [nextId] is an [int] below
    [INT_MAX], [addTask d e] appends to the tail of [stagedTasks] a Task
    with id the current [nextId], the given description and estimate, and
    then [nextId] is one more; the other compartments are untouched.
    Hence, on a fresh Scheduler, the ids handed out by the [addTask] calls of
    any command sequence with fewer than [INT_MAX] such calls are
    1, 2, 3, ... in call order. *)
Theorem addTask_issues_consecutive_ids d e s cs :
  INT_MIN ≤ nextId s < INT_MAX →
  Z.of_nat (adds cs) < INT_MAX →
  (stagedTasks (addTask d e s).1 = stagedTasks s ++ [newTask (nextId s) d e]
   ∧ id (newTask (nextId s) d e) = nextId s
   ∧ description (newTask (nextId s) d e) = d
   ∧ estimate (newTask (nextId s) d e) = e
   ∧ nextId (addTask d e s).1 = nextId s + 1
   ∧ activeTasks (addTask d e s).1 = activeTasks s
   ∧ finishedLog (addTask d e s).1 = finishedLog s
   ∧ (addTask d e s).2 = addedMsg (nextId s))
  ∧ issued cs newScheduler = Z.of_nat <$> seq 1 (adds cs).
Proof.
  intros Hs Hcs. split.
  - simpl. repeat split. apply wrap_int_id. lia.
  - apply issued_from; [done | lia].
Qed.

(** ** The views *)

Lemma append_assoc (a b c : string) : (a +:+ b) +:+ c = a +:+ b +:+ c.
Proof.
  induction a as [|x a IH]; [done|].
  change (String x ((a +:+ b) +:+ c) = String x (a +:+ b +:+ c)). by rewrite IH.
Qed.

Lemma append_nil_r (a : string) : a +:+ EmptyString = a.
Proof.
  induction a as [|x a IH]; [done|].
  change (String x (a +:+ EmptyString) = String x a). by rewrite IH.
Qed.




(** One turn of the loop of [printLog]: the details, the segment when both
    stamps are nonzero, the end of line. *)
Lemma printEntry_printed getDetails out t :
  printEntry getDetails out t
  = out +:+ getDetails t
      +:+ (if decide (startTime t ≠ 0 ∧ finishTime t ≠ 0)
           then printedSegment t else EmptyString)
      +:+ endl.
Proof.
  unfold printEntry, printedSegment, segmentOf. cbv zeta.
  destruct (Z.eqb_spec (startTime t) 0) as [Hs|Hs],
           (Z.eqb_spec (finishTime t) 0) as [Hf|Hf]; cbn [negb andb].
  - rewrite decide_False by (intros [? _]; done). by rewrite !append_assoc.
  - rewrite decide_False by (intros [? _]; done). by rewrite !append_assoc.
  - rewrite decide_False by (intros [_ ?]; done). by rewrite !append_assoc.
  - rewrite decide_True by done. by rewrite !append_assoc.
Qed.

Lemma foldl_printEntry getDetails out l :
  foldl (printEntry getDetails) out l = out +:+ printedBody getDetails l.
Proof.
  unfold printedBody. revert out. induction l as [|t l IH]; intros out; simpl.
  - by rewrite append_nil_r.
  - by rewrite IH, printEntry_printed, !append_assoc.
Qed.

(** [printLog] in closed form, with the segment as the code computes it. *)
Lemma printLog_printed getDetails s :
  printLog getDetails s =
    logHeader (length (finishedLog s))
      +:+ (if decide (finishedLog s = []) then "(none)" +:+ endl
           else printedBody getDetails (finishedLog s)).
Proof.
  unfold printLog, logHeader. cbv zeta. case_decide.
  - by rewrite !append_assoc.
  - by rewrite foldl_printEntry.
Qed.





(** C9 — the views are read-only.  Each of [viewStagedTasks],
    [viewActiveTasks] and [printLog] leaves the Scheduler as it was, so the
    same view called twice in a row prints the same text twice. *)
Theorem views_read_only getDetails s :
  Forall (λ c,
    step c s = s
    ∧ run [c; c] s = s
    ∧ emit getDetails c (step c s) = emit getDetails c s
    ∧ transcript getDetails [c; c] s = emit getDetails c s +:+ emit getDetails c s)
  [cmd_staged; cmd_active; cmd_log].
Proof.
  repeat apply Forall_cons_2; [..|apply Forall_nil_2];
    (repeat split; simpl; by rewrite ?append_nil_r).
Qed.

Lemma printedSegment_nonempty t : printedSegment t ≠ EmptyString.
Proof.
  intros E. apply (f_equal (λ x, String.get 0 x)) in E. by vm_compute in E.
Qed.

(** C10 — presence is tested against 0.  For every Scheduler, [printLog]
    prints the header and then, per finished Task, the details followed by
    the Actual segment exactly when [startTime] and [finishTime] are both
    nonzero, and by nothing before the end of line when one of them is 0
    (the segment is never empty).  So a Task started at the epoch (clock
    reading 0) and then finished is logged without its Actual segment
    although both stamps were taken. *)
Theorem printLog_presence_is_nonzero getDetails s d e tf :
  printLog getDetails s =
    logHeader (length (finishedLog s))
      +:+ (if decide (finishedLog s = []) then "(none)" +:+ endl
           else foldr (λ t rest,
                         getDetails t
                           +:+ (if decide (startTime t ≠ 0 ∧ finishTime t ≠ 0)
                                then printedSegment t else EmptyString)
                           +:+ endl +:+ rest)
                      EmptyString (finishedLog s))
  ∧ Forall (λ t, printedSegment t ≠ EmptyString) (finishedLog s)
  ∧ finishedLog (run [cmd_add d e; cmd_start 1 0; cmd_finish 1 tf] newScheduler)
    = [{| id := 1; description := d; estimate := e;
          status := Finished; startTime := 0; finishTime := tf |}]
  ∧ printLog getDetails
      (run [cmd_add d e; cmd_start 1 0; cmd_finish 1 tf] newScheduler)
    = logHeader 1
        +:+ getDetails {| id := 1; description := d; estimate := e;
                          status := Finished; startTime := 0; finishTime := tf |}
        +:+ endl.
Proof.
  split; [apply printLog_printed|]. split; [|split; [done|]].
  - apply Forall_forall. intros t _. apply printedSegment_nonempty.
  - rewrite printLog_printed. reflexivity.
Qed.

(** ** Timestamps *)

Lemma timed_mono lo hi s : timed lo s → lo ≤ hi → timed hi s.
Proof.
  intros [Ha Hf] Hle. split; [|done].
  intros t Ht. specialize (Ha t Ht). lia.
Qed.

Lemma timed_addTask lo d e s : timed lo s → timed lo (addTask d e s).1.
Proof. by intros [Ha Hf]. Qed.

Lemma timed_startTask lo i now s :
  timed lo s → lo ≤ now → timed now (startTask i now s).1.
Proof.
  intros Ht Hle. startTask_cases i now s t Hin Hl Hi;
    [|by apply (timed_mono lo)].
  destruct Ht as [Ha Hf]. split; simpl; [|done].
  intros x [Hx| ->%list_elem_of_singleton]%elem_of_app; simpl; [|lia].
  specialize (Ha x Hx). lia.
Qed.

Lemma timed_finishTask lo i now s :
  timed lo s → lo ≤ now → timed now (finishTask i now s).1.
Proof.
  intros Ht Hle. finishTask_cases i now s t Hin Hl Hi;
    [|by apply (timed_mono lo)].
  destruct Ht as [Ha Hf]. apply list_elem_of_lookup_2 in Hl. split; simpl.
  - intros x [_ Hx]%elem_of_eraseById. specialize (Ha x Hx). lia.
  - intros x [Hx| ->%list_elem_of_singleton]%elem_of_app; simpl; [by apply Hf|].
    specialize (Ha t Hl). lia.
Qed.

Lemma timed_run cs s lo :
  timed lo s → StronglySorted Z.le (lo :: readings cs) →
  ∀ t, t ∈ finishedLog (run cs s) → startTime t ≤ finishTime t.
Proof.
  revert s lo. induction cs as [|c cs IH]; intros s lo Ht Hs.
  - by destruct Ht.
  - rewrite run_cons. destruct c as [d e|i now|i now| | |]; simpl in Hs |- *.
    + apply (IH _ lo); [by apply timed_addTask | done].
    + apply StronglySorted_inv in Hs as [Hs Hlo]. apply Forall_cons in Hlo as [Hlo _].
      apply (IH _ now); [by apply (timed_startTask lo) | done].
    + apply StronglySorted_inv in Hs as [Hs Hlo]. apply Forall_cons in Hlo as [Hlo _].
      apply (IH _ now); [by apply (timed_finishTask lo) | done].
    + by apply (IH _ lo).
    + by apply (IH _ lo).
    + by apply (IH _ lo).
Qed.

(** C7, as stated, fails: the stamps are wall-clock readings, and a clock set
    back between the start and the finish of a Task leaves it in the log
    with [finishTime] before [startTime]. *)
Lemma finish_before_start_when_clock_steps_back :
  ∃ t, t ∈ finishedLog
             (run [cmd_add "a" 5; cmd_start 1 100; cmd_finish 1 50] newScheduler)
       ∧ ¬ (startTime t ≤ finishTime t).
Proof.
  exists {| id := 1; description := "a"; estimate := 5; status := Finished;
            startTime := 100; finishTime := 50 |}.
  split; [apply list_elem_of_here | simpl; lia].
Qed.

(** C7 — monotone time, amended.  After any sequence of public operations on
    a fresh Scheduler during which the wall-clock readings never decrease,
    every Task in [finishedLog] has [finishTime] at or after [startTime]. *)
Theorem finish_not_before_start_on_monotone_clock cs :
  StronglySorted Z.le (readings cs) →
  Forall (λ t, startTime t ≤ finishTime t) (finishedLog (run cs newScheduler)).
Proof.
  intros Hs. apply Forall_forall.
  apply (timed_run cs newScheduler (hd 0 (readings cs))).
  - split; intros t Ht; by apply elem_of_nil in Ht.
  - destruct (readings cs) as [|r rs]; simpl.
    + repeat constructor.
    + constructor; [done|]. apply StronglySorted_inv in Hs as [_ Hr].
      constructor; [lia | done].
Qed.

(** ** Worked instances *)

Lemma startTask_moves_staged_to_active_witness :
  ∃ t, stagedTasks (run two_added newScheduler) !! 0%nat = Some t
     ∧ activeTasks (startTask 1 100 (run two_added newScheduler)).1
       = [markActive 100 t]
     ∧ stagedTasks (startTask 1 100 (run two_added newScheduler)).1
       = [newTask 2 "b" 10].
Proof.
  destruct (startTask_moves_staged_to_active 1 100 (run two_added newScheduler))
    as (p & t & Hp & Hl & _ & _ & _ & _ & Ha & Hs & _).
  - intros i. split; [|split]; intros _ H; by apply elem_of_nil in H.
  - apply list_elem_of_here.
  - injection Hp as <-. exists t. split; [exact Hl|]. split; [exact Ha | exact Hs].
Defined.

Lemma startTask_unknown_id_changes_nothing_witness :
  startTask 99 0 (run [cmd_add "x" 1] newScheduler)
  = (run [cmd_add "x" 1] newScheduler, stagedMissMsg 99).
Proof.
  apply (proj1 (startTask_unknown_id_changes_nothing 99 0
                  (run [cmd_add "x" 1] newScheduler))).
  intros t Ht. apply list_elem_of_singleton in Ht. by subst t.
Defined.

Lemma startTask_twice_witness :
  startTask 1 200 (startTask 1 100 (run two_added newScheduler)).1
  = ((startTask 1 100 (run two_added newScheduler)).1, stagedMissMsg 1).
Proof.
  apply (startTask_twice 1 100 200 (run two_added newScheduler)).
  apply list_elem_of_here.
Defined.

Lemma finishTask_on_staged_changes_nothing_witness :
  finishTask 1 7 (run [cmd_add "y" 1] newScheduler)
  = (run [cmd_add "y" 1] newScheduler, activeMissMsg 1).
Proof.
  apply (finishTask_on_staged_changes_nothing 1 7
           (run [cmd_add "y" 1] newScheduler) (newTask 1 "y" 1)).
  - apply list_elem_of_here.
  - reflexivity.
  - intros a Ha. by apply elem_of_nil in Ha.
Defined.

Lemma run_disjoint_and_status_coherent_witness :
  disjoint_ids (run lifecycle newScheduler)
  ∧ status_coherent (run lifecycle newScheduler).
Proof. apply (run_disjoint_and_status_coherent lifecycle). by vm_compute. Defined.

Lemma addTask_issues_consecutive_ids_witness :
  nextId (addTask "c" 0 (run lifecycle newScheduler)).1 = 4
  ∧ issued (lifecycle ++ [cmd_add "c" 0]) newScheduler = [1; 2; 3].
Proof.
  destruct (addTask_issues_consecutive_ids "c" 0 (run lifecycle newScheduler)
              (lifecycle ++ [cmd_add "c" 0])) as [(_ & _ & _ & _ & Hn & _) Hi].
  - by vm_compute.
  - by vm_compute.
  - split; [exact Hn | exact Hi].
Defined.


Lemma finish_not_before_start_on_monotone_clock_witness :
  Forall (λ t, startTime t ≤ finishTime t) (finishedLog (run lifecycle newScheduler)).
Proof.
  apply (finish_not_before_start_on_monotone_clock lifecycle).
  repeat constructor; lia.
Defined.

(** The transcript of the lifecycle session, with a renderer that shows the
    id and the description. *)
Example lifecycle_transcript :
  transcript (λ t, "#" +:+ pretty (id t) +:+ " " +:+ description t) lifecycle newScheduler
  = "Added task [#1] to staged tasks." +:+ endl
    +:+ "Added task [#2] to staged tasks." +:+ endl
    +:+ "Started task [#1]." +:+ endl
    +:+ "Finished task [#1]." +:+ endl
    +:+ "--- Finished Tasks Log (1) ---" +:+ endl
    +:+ "#1 a | Actual: 61 s (1 m 1 s)" +:+ endl
    +:+ "--- Staged Tasks (1) ---" +:+ endl
    +:+ "#2 b" +:+ endl
    +:+ "--- Active Tasks (0) ---" +:+ endl
    +:+ "(none)" +:+ endl.
Proof. by vm_compute. Qed.

(** A finish right after the start logs a zero duration. *)
Example immediate_finish_logs_zero :
  printLog (λ t, description t)
    (run [cmd_add "a" 5; cmd_start 1 1700000000; cmd_finish 1 1700000000] newScheduler)
  = "--- Finished Tasks Log (1) ---" +:+ endl
    +:+ "a | Actual: 0 s (0 m 0 s)" +:+ endl.
Proof. by vm_compute. Qed.

(** * Further properties of the Scheduler *)

(** ** findTaskById *)

(** X1 — first match.  [findTaskById] returns a pointer inside the vector to
    a Task with the id, no Task before it has the id, and it returns
    [nullptr] exactly when no Task of the vector has the id. *)
Theorem findTaskById_first_match i l :
  match findTaskById i l with
  | Some p =>
      (p < length l)%nat
      ∧ (∃ t, l !! p = Some t ∧ id t = i)
      ∧ (∀ q t', (q < p)%nat → l !! q = Some t' → id t' ≠ i)
  | None => ∀ t, t ∈ l → id t ≠ i
  end.
Proof.
  destruct (findTaskById i l) as [p|] eqn:E.
  - destruct (findTaskById_Some i l p E) as (t & Hl & Hi & Hfirst).
    split; [by eapply lookup_lt_Some | split; [by exists t | done]].
  - apply findTaskById_None in E. intros t Ht Hi. apply E.
    unfold ids. apply list_elem_of_fmap. by exists t.
Qed.

(** ** finishTask *)

(** X2 — finishTask on an active id.  In a Scheduler whose compartments are
    disjoint on id, if some active Task has id [i] then [finishTask i] takes
    the active Task [t] with that id, marks it Finished with [finishTime] the
    clock reading (its [startTime] kept), appends it to the tail of
    [finishedLog], erases it from [activeTasks], leaves [stagedTasks] and
    [nextId] alone and prints the confirmation; id [i] is then in no other
    compartment and was not in the log before. *)
Theorem finishTask_moves_active_to_finished i now s :
  disjoint_ids s →
  i ∈ ids (activeTasks s) →
  ∃ p t,
    findTaskById i (activeTasks s) = Some p
    ∧ activeTasks s !! p = Some t ∧ id t = i
    ∧ status (markFinished now t) = Finished
    ∧ finishTime (markFinished now t) = now
    ∧ startTime (markFinished now t) = startTime t
    ∧ finishedLog (finishTask i now s).1 = finishedLog s ++ [markFinished now t]
    ∧ activeTasks (finishTask i now s).1 = eraseById i (activeTasks s)
    ∧ stagedTasks (finishTask i now s).1 = stagedTasks s
    ∧ nextId (finishTask i now s).1 = nextId s
    ∧ (finishTask i now s).2 = finishedMsg i
    ∧ (i ∉ ids (activeTasks (finishTask i now s).1))
    ∧ (i ∉ ids (stagedTasks (finishTask i now s).1))
    ∧ (i ∉ ids (finishedLog s)).
Proof.
  intros Hdis Hin. destruct (Hdis i) as (Hsa & _ & Haf).
  destruct (finishTask_hit i now s Hin) as (p & t & Hp & Hl & Hi & ->).
  exists p, t. simpl. repeat split; try done.
  - apply not_elem_of_ids_eraseById.
  - intros Hs. by apply (Hsa Hs).
  - by apply Haf.
Qed.

(** X3 — finishTask twice.  When some active Task has id [i], the first
    [finishTask i] prints the confirmation and the second one returns the
    state the first one left, printing only the not-found notice. *)
Theorem finishTask_twice i now1 now2 s :
  i ∈ ids (activeTasks s) →
  (finishTask i now1 s).2 = finishedMsg i
  ∧ finishTask i now2 (finishTask i now1 s).1
    = ((finishTask i now1 s).1, activeMissMsg i)
  ∧ run [cmd_finish i now1; cmd_finish i now2] s = run [cmd_finish i now1] s.
Proof.
  intros Hin. destruct (finishTask_hit i now1 s Hin) as (p & t & _ & _ & _ & E).
  assert (finishTask i now2 (finishTask i now1 s).1
          = ((finishTask i now1 s).1, activeMissMsg i)) as E2.
  { apply finishTask_miss. rewrite E. simpl. apply not_elem_of_ids_eraseById. }
  split; [by rewrite E | split; [done|]].
  unfold run. simpl. by rewrite E2.
Qed.

(** ** No way back *)

(** X4 — no reverse transition.  In a Scheduler whose compartments are
    disjoint on id, [startTask] on an id that is active or finished changes
    nothing and prints the not-found notice, and so does [finishTask] on an
    id that is finished. *)
Theorem begun_task_cannot_restart i now s :
  disjoint_ids s →
  begun i s →
  startTask i now s = (s, stagedMissMsg i)
  ∧ (i ∈ ids (finishedLog s) → finishTask i now s = (s, activeMissMsg i)).
Proof.
  intros Hdis Hb. destruct (Hdis i) as (Hsa & Hsf & Haf). split.
  - apply startTask_miss. intros Hs. destruct Hb; [by apply Hsa | by apply Hsf].
  - intros Hf. apply finishTask_miss. intros Ha. by apply Haf.
Qed.

(** ** What a transition keeps *)

(** X5 — order is kept.  Whether or not the id is found, [startTask i]
    leaves in [stagedTasks] exactly the Tasks with another id, in their
    order, and only ever extends [activeTasks] at the tail; [finishTask i]
    does the same with [activeTasks] and [finishedLog]. *)
Theorem transitions_keep_order i now s :
  stagedTasks (startTask i now s).1 = filter (λ t, id t ≠ i) (stagedTasks s)
  ∧ activeTasks s `prefix_of` activeTasks (startTask i now s).1
  ∧ finishedLog (startTask i now s).1 = finishedLog s
  ∧ activeTasks (finishTask i now s).1 = filter (λ t, id t ≠ i) (activeTasks s)
  ∧ finishedLog s `prefix_of` finishedLog (finishTask i now s).1
  ∧ stagedTasks (finishTask i now s).1 = stagedTasks s.
Proof.
  split; [|split; [|split; [|split; [|split]]]].
  - startTask_cases i now s t Hin Hl Hi; [done|].
    symmetry. by apply eraseById_absent.
  - startTask_cases i now s t Hin Hl Hi; [by apply prefix_app_r | done].
  - by startTask_cases i now s t Hin Hl Hi.
  - finishTask_cases i now s t Hin Hl Hi; [done|].
    symmetry. by apply eraseById_absent.
  - finishTask_cases i now s t Hin Hl Hi; [by apply prefix_app_r | done].
  - by finishTask_cases i now s t Hin Hl Hi.
Qed.

Lemma startedMsg_ne_miss i : startedMsg i ≠ stagedMissMsg i.
Proof.
  intros E. apply (f_equal (λ x, String.get 0 x)) in E. by vm_compute in E.
Qed.

Lemma finishedMsg_ne_miss i : finishedMsg i ≠ activeMissMsg i.
Proof.
  intros E. apply (f_equal (λ x, String.get 0 x)) in E. by vm_compute in E.
Qed.

Lemma snoc_ne {A} (l : list A) x : l ++ [x] ≠ l.
Proof.
  intros E. apply (f_equal length) in E. rewrite length_app in E. simpl in E. lia.
Qed.

(** X6 — the printed line tells the outcome.  [startTask i] prints the
    confirmation exactly when a staged Task has id [i], and then the state
    has changed; otherwise it prints the not-found notice and the state is
    the same.  Likewise for [finishTask i] and [activeTasks]. *)
Theorem printed_line_tells_outcome i now s :
  ((startTask i now s).2 = startedMsg i ↔ i ∈ ids (stagedTasks s))
  ∧ ((startTask i now s).2 = stagedMissMsg i ↔ i ∉ ids (stagedTasks s))
  ∧ ((startTask i now s).1 = s ↔ i ∉ ids (stagedTasks s))
  ∧ ((finishTask i now s).2 = finishedMsg i ↔ i ∈ ids (activeTasks s))
  ∧ ((finishTask i now s).2 = activeMissMsg i ↔ i ∉ ids (activeTasks s))
  ∧ ((finishTask i now s).1 = s ↔ i ∉ ids (activeTasks s)).
Proof.
  pose proof (startedMsg_ne_miss i) as Hs.
  pose proof (finishedMsg_ne_miss i) as Hf.
  split; [|split; [|split; [|split; [|split]]]].
  - startTask_cases i now s t Hin Hl Hi; simpl; split; try done;
      intros E; by destruct Hs.
  - startTask_cases i now s t Hin Hl Hi; simpl; split; done.
  - startTask_cases i now s t Hin Hl Hi; simpl; split; try done.
    intros E. apply (f_equal activeTasks) in E. simpl in E.
    by apply snoc_ne in E.
  - finishTask_cases i now s t Hin Hl Hi; simpl; split; try done;
      intros E; by destruct Hf.
  - finishTask_cases i now s t Hin Hl Hi; simpl; split; done.
  - finishTask_cases i now s t Hin Hl Hi; simpl; split; try done.
    intros E. apply (f_equal finishedLog) in E. simpl in E.
    by apply snoc_ne in E.
Qed.

(** ** The log only grows *)

Lemma finishedLog_step c s : finishedLog s `prefix_of` finishedLog (step c s).
Proof.
  destruct c as [d e|i now|i now| | |]; simpl; try done.
  - by startTask_cases i now s t Hin Hl Hi.
  - finishTask_cases i now s t Hin Hl Hi; [by apply prefix_app_r | done].
Qed.

(** X7 — the log is append-only.  Whatever is called, the Tasks already in
    [finishedLog] stay there, unchanged and in place: the old log is a
    prefix of the new one. *)
Theorem finishedLog_append_only cs s :
  finishedLog s `prefix_of` finishedLog (run cs s).
Proof.
  revert s. induction cs as [|c cs IH]; intros s; [done|].
  rewrite run_cons. etrans; [apply (finishedLog_step c) | apply IH].
Qed.

Lemma begun_step c i s : begun i s → begun i (step c s).
Proof.
  unfold begun. destruct c as [d e|j now|j now| | |]; simpl; try done.
  - startTask_cases j now s t Hin Hl Hi; simpl; [|done].
    intros [Ha|Hf]; [left | by right].
    rewrite ids_snoc. apply elem_of_app. by left.
  - finishTask_cases j now s t Hin Hl Hi; simpl; [|done].
    rewrite ids_snoc, ids_eraseById, elem_of_app, list_elem_of_filter.
    intros [Ha|Hf]; [|by right; left].
    destruct (decide (i = j)) as [->|Hne]; [|by left].
    right; right. simpl. rewrite Hi. apply list_elem_of_here.
Qed.

Lemma begun_run cs i s : begun i s → begun i (run cs s).
Proof.
  revert s. induction cs as [|c cs IH]; intros s Hb; [done|].
  rewrite run_cons. by apply IH, begun_step.
Qed.

(** X8 — a started Task is never staged again.  On a Scheduler driven from
    fresh with fewer than [INT_MAX] [addTask] calls in all, an id that is
    active or finished at some point is active or finished at every later
    point, and is never again the id of a staged Task. *)
Theorem begun_never_staged_again cs1 cs2 i :
  Z.of_nat (adds (cs1 ++ cs2)) < INT_MAX →
  begun i (run cs1 newScheduler) →
  begun i (run (cs1 ++ cs2) newScheduler)
  ∧ (i ∉ ids (stagedTasks (run (cs1 ++ cs2) newScheduler))).
Proof.
  intros Hlt Hb.
  assert (begun i (run (cs1 ++ cs2) newScheduler)) as Hb'
    by (rewrite run_app; by apply begun_run).
  split; [done|].
  destruct (wf_run (cs1 ++ cs2) newScheduler wf_newScheduler) as [Hwf _];
    [simpl; lia|].
  destruct (wf_disjoint _ Hwf i) as (Hsa & Hsf & _).
  intros Hs. destruct Hb'; [by apply Hsa | by apply Hsf].
Qed.

(** ** The ids a Scheduler holds *)

Lemma allIds_run cs s (n : nat) :
  wf s → nextId s = Z.of_nat n → Z.of_nat n + Z.of_nat (adds cs) ≤ INT_MAX →
  allIds (run cs s) ≡ₚ allIds s ++ (Z.of_nat <$> seq n (adds cs)).
Proof.
  revert s n. induction cs as [|c cs IH]; intros s n Hwf Hn Hle.
  - simpl. by rewrite app_nil_r.
  - rewrite run_cons. rewrite adds_cons in Hle.
    destruct (wf_step c s Hwf) as [Hwf' Hn']; [lia|].
    destruct c as [d e|i now|i now| | |].
    + change (step (cmd_add d e) s) with (addTask d e s).1 in *.
      change (adds (cmd_add d e :: cs)) with (S (adds cs)).
      change (adds [cmd_add d e]) with 1%nat in *.
      rewrite (IH _ (S n)), allIds_addTask; [|done|lia|lia].
      rewrite Hn. simpl. by rewrite <- Permutation_middle.
    + change (step (cmd_start i now) s) with (startTask i now s).1 in *.
      change (adds (cmd_start i now :: cs)) with (adds cs).
      change (adds [cmd_start i now]) with 0%nat in *.
      rewrite (IH _ n), allIds_startTask; [done|by destruct Hwf|done|lia|lia].
    + change (step (cmd_finish i now) s) with (finishTask i now s).1 in *.
      change (adds (cmd_finish i now :: cs)) with (adds cs).
      change (adds [cmd_finish i now]) with 0%nat in *.
      rewrite (IH _ n), allIds_finishTask; [done|by destruct Hwf|done|lia|lia].
    + simpl in *. apply IH; [done..|lia].
    + simpl in *. apply IH; [done..|lia].
    + simpl in *. apply IH; [done..|lia].
Qed.

(** X9 — nothing lost, nothing doubled.  On a Scheduler driven from fresh
    with [n] calls of [addTask], [n] below [INT_MAX], the ids held in the
    three compartments together are exactly 1, ..., n, each once; so the
    compartments hold [n] Tasks in all, and [nextId] is [n + 1]. *)
Theorem ids_held_are_ids_issued cs :
  Z.of_nat (adds cs) < INT_MAX →
  allIds (run cs newScheduler) ≡ₚ Z.of_nat <$> seq 1 (adds cs)
  ∧ NoDup (allIds (run cs newScheduler))
  ∧ (length (stagedTasks (run cs newScheduler))
     + length (activeTasks (run cs newScheduler))
     + length (finishedLog (run cs newScheduler)) = adds cs)%nat
  ∧ nextId (run cs newScheduler) = Z.of_nat (adds cs) + 1.
Proof.
  intros Hlt.
  destruct (wf_run cs newScheduler wf_newScheduler) as [Hwf Hn]; [simpl; lia|].
  pose proof (allIds_run cs newScheduler 1 wf_newScheduler eq_refl) as Hp.
  simpl in Hp. specialize (Hp ltac:(lia)).
  split; [done | split; [by destruct Hwf | split]].
  - apply Permutation_length in Hp. unfold allIds, ids in Hp.
    rewrite !length_app, !length_fmap, length_seq in Hp. lia.
  - rewrite Hn. simpl. lia.
Qed.

(** X10 — ids never issued.  On such a Scheduler, [startTask] and
    [finishTask] on an id below 1 or above the number of [addTask] calls so
    far change nothing and print the not-found notice. *)
Theorem never_issued_id_is_not_found cs i now :
  Z.of_nat (adds cs) < INT_MAX →
  i < 1 ∨ Z.of_nat (adds cs) < i →
  startTask i now (run cs newScheduler) = (run cs newScheduler, stagedMissMsg i)
  ∧ finishTask i now (run cs newScheduler) = (run cs newScheduler, activeMissMsg i).
Proof.
  intros Hlt Hi.
  destruct (wf_run cs newScheduler wf_newScheduler) as [Hwf Hn]; [simpl; lia|].
  assert (i ∉ allIds (run cs newScheduler)) as Hout.
  { intros Hin. apply (wf_below _ Hwf) in Hin. rewrite Hn in Hin. simpl in Hin. lia. }
  unfold allIds in Hout. rewrite !elem_of_app in Hout. split.
  - apply startTask_miss. intros H. apply Hout. by left.
  - apply finishTask_miss. intros H. apply Hout. by right; left.
Qed.

Lemma eraseById_snoc_fresh i l t :
  i ∉ ids l → id t = i → eraseById i (l ++ [t]) = l.
Proof.
  intros Hout Hi. unfold eraseById. rewrite filter_app.
  change (filter _ l) with (eraseById i l). rewrite eraseById_absent by done.
  rewrite filter_cons, decide_False by (by intros H; apply H).
  by rewrite filter_nil, app_nil_r.
Qed.

Lemma lookup_snoc_fresh i l t p t' :
  i ∉ ids l → (l ++ [t]) !! p = Some t' → id t' = i → t' = t.
Proof.
  intros Hout Hl Hi. apply list_elem_of_lookup_2 in Hl.
  apply elem_of_app in Hl as [Hl|Hl]; [|by apply list_elem_of_singleton in Hl].
  destruct Hout. unfold ids. apply list_elem_of_fmap. by exists t'.
Qed.

(** X11 — a whole lifecycle.  On a Scheduler driven from fresh, adding a
    Task and then starting and finishing the id it was given leaves
    [stagedTasks] and [activeTasks] as they were, advances [nextId] by one,
    and appends to [finishedLog] one Task with that id, the description and
    estimate given, status Finished and the two clock readings as stamps. *)
Theorem add_start_finish_round_trip cs d e t1 t2 :
  Z.of_nat (adds cs) + 1 < INT_MAX →
  run (cs ++ [cmd_add d e;
              cmd_start (Z.of_nat (adds cs) + 1) t1;
              cmd_finish (Z.of_nat (adds cs) + 1) t2]) newScheduler
  = {| nextId := Z.of_nat (adds cs) + 2;
       stagedTasks := stagedTasks (run cs newScheduler);
       activeTasks := activeTasks (run cs newScheduler);
       finishedLog := finishedLog (run cs newScheduler)
         ++ [{| id := Z.of_nat (adds cs) + 1; description := d; estimate := e;
                status := Finished; startTime := t1; finishTime := t2 |}] |}.
Proof.
  intros Hlt. rewrite run_app.
  destruct (wf_run cs newScheduler wf_newScheduler) as [Hwf Hn]; [simpl; lia|].
  simpl in Hn. set (s := run cs newScheduler) in *.
  set (n := Z.of_nat (adds cs) + 1).
  assert (nextId s = n) as Hn' by (unfold n; lia).
  assert (n ∉ allIds s) as Hout.
  { intros Hin. apply (wf_below _ Hwf) in Hin. lia. }
  unfold allIds in Hout. rewrite !elem_of_app in Hout.
  assert (n ∉ ids (stagedTasks s)) as Hs by (intros H; apply Hout; by left).
  assert (n ∉ ids (activeTasks s)) as Ha by (intros H; apply Hout; by right; left).
  unfold run. simpl. rewrite Hn'.
  assert (wrap_int (n + 1) = Z.of_nat (adds cs) + 2) as ->.
  { rewrite wrap_int_id; unfold n, INT_MIN; lia. }
  set (s1 := {| nextId := Z.of_nat (adds cs) + 2;
                stagedTasks := stagedTasks s ++ [newTask n d e];
                activeTasks := activeTasks s; finishedLog := finishedLog s |}).
  destruct (startTask_hit n t1 s1) as (p & t & _ & Hl & Hi & ->).
  { simpl. rewrite ids_snoc. apply elem_of_app. right. apply list_elem_of_here. }
  simpl in Hl. apply (lookup_snoc_fresh n) in Hl as ->; [|done..].
  simpl. rewrite eraseById_snoc_fresh by done.
  set (s2 := {| nextId := Z.of_nat (adds cs) + 2; stagedTasks := stagedTasks s;
                activeTasks := activeTasks s ++ [markActive t1 (newTask n d e)];
                finishedLog := finishedLog s |}).
  destruct (finishTask_hit n t2 s2) as (p' & t' & _ & Hl' & Hi' & ->).
  { simpl. rewrite ids_snoc. apply elem_of_app. right. apply list_elem_of_here. }
  simpl in Hl'. apply (lookup_snoc_fresh n) in Hl' as ->; [|done..].
  simpl. by rewrite eraseById_snoc_fresh.
Qed.

(** ** The two compartment views *)

Lemma printAll_viewBody getDetails out l :
  printAll getDetails out l = out +:+ viewBody getDetails l.
Proof.
  unfold printAll, viewBody. revert out. induction l as [|t l IH]; intros out; simpl.
  - by rewrite append_nil_r.
  - by rewrite IH, !append_assoc.
Qed.

Lemma viewBody_snoc getDetails l t :
  viewBody getDetails (l ++ [t]) = viewBody getDetails l +:+ getDetails t +:+ endl.
Proof.
  unfold viewBody. induction l as [|x l IH]; simpl.
  - by rewrite append_nil_r.
  - by rewrite IH, !append_assoc.
Qed.

(** X12 — the compartment views.  [viewStagedTasks] and [viewActiveTasks]
    print a header with the number of Tasks in the compartment, then
    "(none)" when it is empty and otherwise one details line per Task in
    vector order; right after an [addTask] the staged view is never empty
    and ends with the line of the new Task. *)
Theorem views_list_in_order getDetails s d e :
  viewStagedTasks getDetails s =
    "--- Staged Tasks (" +:+ pretty (length (stagedTasks s)) +:+ ") ---" +:+ endl
      +:+ (if decide (stagedTasks s = []) then "(none)" +:+ endl
           else viewBody getDetails (stagedTasks s))
  ∧ viewActiveTasks getDetails s =
    "--- Active Tasks (" +:+ pretty (length (activeTasks s)) +:+ ") ---" +:+ endl
      +:+ (if decide (activeTasks s = []) then "(none)" +:+ endl
           else viewBody getDetails (activeTasks s))
  ∧ viewStagedTasks getDetails (addTask d e s).1 =
    "--- Staged Tasks (" +:+ pretty (S (length (stagedTasks s))) +:+ ") ---" +:+ endl
      +:+ viewBody getDetails (stagedTasks s)
      +:+ getDetails (newTask (nextId s) d e) +:+ endl.
Proof.
  split; [|split].
  - unfold viewStagedTasks. cbv zeta. case_decide.
    + by rewrite !append_assoc.
    + by rewrite printAll_viewBody, !append_assoc.
  - unfold viewActiveTasks. cbv zeta. case_decide.
    + by rewrite !append_assoc.
    + by rewrite printAll_viewBody, !append_assoc.
  - unfold viewStagedTasks. cbv zeta. simpl.
    rewrite decide_False by (intros E; by apply app_nil in E as [_ ?]).
    rewrite printAll_viewBody, viewBody_snoc, length_app. simpl.
    rewrite Nat.add_1_r. by rewrite !append_assoc.
Qed.

(** ** Stamps *)

Lemma unstamped_step c s : unstamped s → unstamped (step c s).
Proof.
  intros [Hs Ha]. destruct c as [d e|i now|i now| | |]; simpl; try done.
  - split; simpl; [|done].
    intros t [Ht| ->%list_elem_of_singleton]%elem_of_app; [by apply Hs | done].
  - startTask_cases i now s t Hin Hl Hi; [|done].
    apply list_elem_of_lookup_2 in Hl. split; simpl.
    + intros x [_ Hx]%elem_of_eraseById. by apply Hs.
    + intros x [Hx| ->%list_elem_of_singleton]%elem_of_app; [by apply Ha|].
      simpl. by apply Hs.
  - finishTask_cases i now s t Hin Hl Hi; [|done].
    split; simpl; [done|].
    intros x [_ Hx]%elem_of_eraseById. by apply Ha.
Qed.

(** X13 — absent stamps.  On a Scheduler driven from fresh, every staged
    Task has both stamps absent (0) and every active Task has its finish
    stamp absent. *)
Theorem run_keeps_unstamped cs : unstamped (run cs newScheduler).
Proof.
  assert (∀ s, unstamped s → unstamped (run cs s)) as H.
  { induction cs as [|c cs IH]; intros s Hs; [done|].
    rewrite run_cons. by apply IH, unstamped_step. }
  apply H. split; intros t Ht; by apply elem_of_nil in Ht.
Qed.

Lemma stamped_run cs s :
  stamped s → Forall (λ r, r ≠ 0) (readings cs) → stamped (run cs s).
Proof.
  revert s. induction cs as [|c cs IH]; intros s Hst Hr; [done|].
  rewrite run_cons. destruct c as [d e|i now|i now| | |]; simpl in Hr |- *;
    try (by apply IH).
  - apply Forall_cons in Hr as [Hnow Hr]. apply IH; [|done].
    destruct Hst as [Ha Hf]. startTask_cases i now s t Hin Hl Hi; [|done].
    split; simpl; [|done].
    intros x [Hx| ->%list_elem_of_singleton]%elem_of_app; [by apply Ha | done].
  - apply Forall_cons in Hr as [Hnow Hr]. apply IH; [|done].
    destruct Hst as [Ha Hf]. finishTask_cases i now s t Hin Hl Hi; [|done].
    apply list_elem_of_lookup_2 in Hl. split; simpl.
    + intros x [_ Hx]%elem_of_eraseById. by apply Ha.
    + intros x [Hx| ->%list_elem_of_singleton]%elem_of_app; [by apply Hf|].
      simpl. split; [by apply Ha | done].
Qed.

Lemma printedBody_stamped getDetails l :
  (∀ t, t ∈ l → startTime t ≠ 0 ∧ finishTime t ≠ 0) →
  printedBody getDetails l
  = foldr (λ t rest, getDetails t +:+ printedSegment t +:+ endl +:+ rest)
      EmptyString l.
Proof.
  unfold printedBody. induction l as [|t l IH]; intros Hl; [done|].
  simpl. rewrite IH by (intros x Hx; by apply Hl, list_elem_of_further).
  by rewrite decide_True by apply Hl, list_elem_of_here.
Qed.

(** X14 — every logged Task shows its duration.  On a Scheduler driven from
    fresh while the clock never reads 0, every Task in [finishedLog] has
    both stamps nonzero, so every Task line of [printLog] is the details
    followed by the Actual segment. *)
Theorem nonzero_clock_logs_every_duration getDetails cs :
  Forall (λ r, r ≠ 0) (readings cs) →
  Forall (λ t, startTime t ≠ 0 ∧ finishTime t ≠ 0) (finishedLog (run cs newScheduler))
  ∧ (finishedLog (run cs newScheduler) ≠ [] →
     printLog getDetails (run cs newScheduler)
     = logHeader (length (finishedLog (run cs newScheduler)))
         +:+ foldr (λ t rest, getDetails t +:+ printedSegment t +:+ endl +:+ rest)
               EmptyString (finishedLog (run cs newScheduler))).
Proof.
  intros Hr.
  assert (stamped (run cs newScheduler)) as [_ Hf].
  { apply stamped_run; [|done]. split; intros t Ht; by apply elem_of_nil in Ht. }
  split.
  - apply Forall_forall. intros t Ht. by apply Hf.
  - intros Hne. rewrite printLog_printed, decide_False by done.
    by rewrite printedBody_stamped.
Qed.

(** ** One Task at a time *)

Lemma length_eraseById_unique i l :
  NoDup (ids l) → i ∈ ids l → S (length (eraseById i l)) = length l.
Proof.
  intros Hnd Hin. apply (ids_eraseById_perm i l Hnd) in Hin.
  apply Permutation_length in Hin. unfold ids in Hin.
  rewrite length_cons, !length_fmap in Hin. lia.
Qed.

(** X15 — a transition moves exactly one Task.  On a Scheduler driven from
    fresh with fewer than [INT_MAX] [addTask] calls, a [startTask] that finds
    its id makes [stagedTasks] one shorter and [activeTasks] one longer, and
    a [finishTask] that finds its id makes [activeTasks] one shorter and
    [finishedLog] one longer. *)
Theorem transition_moves_exactly_one cs i now :
  Z.of_nat (adds cs) < INT_MAX →
  (i ∈ ids (stagedTasks (run cs newScheduler)) →
     S (length (stagedTasks (startTask i now (run cs newScheduler)).1))
       = length (stagedTasks (run cs newScheduler))
     ∧ length (activeTasks (startTask i now (run cs newScheduler)).1)
       = S (length (activeTasks (run cs newScheduler))))
  ∧ (i ∈ ids (activeTasks (run cs newScheduler)) →
     S (length (activeTasks (finishTask i now (run cs newScheduler)).1))
       = length (activeTasks (run cs newScheduler))
     ∧ length (finishedLog (finishTask i now (run cs newScheduler)).1)
       = S (length (finishedLog (run cs newScheduler)))).
Proof.
  intros Hlt.
  destruct (wf_run cs newScheduler wf_newScheduler) as [Hwf _]; [simpl; lia|].
  destruct Hwf as [Hnd _ _ _]. unfold allIds in Hnd.
  apply NoDup_app in Hnd as (Hs & _ & Hnd). apply NoDup_app in Hnd as (Ha & _ & _).
  split; intros Hin.
  - destruct (startTask_hit i now _ Hin) as (p & t & _ & _ & _ & ->). simpl.
    split; [by apply length_eraseById_unique|].
    rewrite length_app. simpl. lia.
  - destruct (finishTask_hit i now _ Hin) as (p & t & _ & _ & _ & ->). simpl.
    split; [by apply length_eraseById_unique|].
    rewrite length_app. simpl. lia.
Qed.

(** ** Worked instances of the further properties *)

Lemma disjoint_ids_run cs :
  Z.of_nat (adds cs) < INT_MAX → disjoint_ids (run cs newScheduler).
Proof.
  intros Hlt. apply wf_disjoint.
  destruct (wf_run cs newScheduler wf_newScheduler) as [Hwf _]; [simpl; lia | done].
Qed.

Lemma finishTask_moves_active_to_finished_witness :
  ∃ t, activeTasks (run (two_added ++ [cmd_start 1 100]) newScheduler) !! 0%nat = Some t
     ∧ finishedLog (finishTask 1 161 (run (two_added ++ [cmd_start 1 100]) newScheduler)).1
       = [markFinished 161 t]
     ∧ activeTasks (finishTask 1 161 (run (two_added ++ [cmd_start 1 100]) newScheduler)).1
       = [].
Proof.
  destruct (finishTask_moves_active_to_finished 1 161
              (run (two_added ++ [cmd_start 1 100]) newScheduler))
    as (p & t & Hp & Hl & _ & _ & _ & _ & Hf & Ha & _).
  - apply disjoint_ids_run. by vm_compute.
  - apply list_elem_of_here.
  - injection Hp as <-. exists t. split; [exact Hl|]. split; [exact Hf | exact Ha].
Defined.

Lemma finishTask_twice_witness :
  finishTask 1 200 (finishTask 1 161 (run (two_added ++ [cmd_start 1 100]) newScheduler)).1
  = ((finishTask 1 161 (run (two_added ++ [cmd_start 1 100]) newScheduler)).1,
     activeMissMsg 1).
Proof.
  apply (finishTask_twice 1 161 200 (run (two_added ++ [cmd_start 1 100]) newScheduler)).
  apply list_elem_of_here.
Defined.

Lemma begun_task_cannot_restart_witness :
  startTask 1 500 (run lifecycle newScheduler)
  = (run lifecycle newScheduler, stagedMissMsg 1).
Proof.
  apply (begun_task_cannot_restart 1 500 (run lifecycle newScheduler)).
  - apply disjoint_ids_run. by vm_compute.
  - right. apply list_elem_of_here.
Defined.

Lemma begun_never_staged_again_witness :
  begun 1 (run ((two_added ++ [cmd_start 1 100])
                ++ [cmd_finish 1 161; cmd_add "c" 1]) newScheduler)
  ∧ (1 ∉ ids (stagedTasks (run ((two_added ++ [cmd_start 1 100])
                                ++ [cmd_finish 1 161; cmd_add "c" 1]) newScheduler))).
Proof.
  apply (begun_never_staged_again (two_added ++ [cmd_start 1 100])
           [cmd_finish 1 161; cmd_add "c" 1] 1).
  - by vm_compute.
  - left. apply list_elem_of_here.
Defined.

Lemma ids_held_are_ids_issued_witness :
  allIds (run lifecycle newScheduler) ≡ₚ [1; 2]
  ∧ nextId (run lifecycle newScheduler) = 3.
Proof.
  destruct (ids_held_are_ids_issued lifecycle) as (Hp & _ & _ & Hn).
  - by vm_compute.
  - split; [exact Hp | exact Hn].
Defined.

Lemma never_issued_id_is_not_found_witness :
  startTask 99 0 (run two_added newScheduler)
  = (run two_added newScheduler, stagedMissMsg 99)
  ∧ finishTask 99 0 (run two_added newScheduler)
  = (run two_added newScheduler, activeMissMsg 99).
Proof.
  apply (never_issued_id_is_not_found two_added 99 0).
  - by vm_compute.
  - right. by vm_compute.
Defined.

Lemma add_start_finish_round_trip_witness :
  run (two_added ++ [cmd_add "c" 7; cmd_start 3 10; cmd_finish 3 20]) newScheduler
  = {| nextId := 4;
       stagedTasks := [newTask 1 "a" 5; newTask 2 "b" 10];
       activeTasks := [];
       finishedLog := [{| id := 3; description := "c"; estimate := 7;
                          status := Finished; startTime := 10; finishTime := 20 |}] |}.
Proof.
  apply (add_start_finish_round_trip two_added "c" 7 10 20). by vm_compute.
Defined.

Lemma nonzero_clock_logs_every_duration_witness :
  Forall (λ t, startTime t ≠ 0 ∧ finishTime t ≠ 0)
         (finishedLog (run lifecycle newScheduler))
  ∧ (finishedLog (run lifecycle newScheduler) ≠ [] →
     printLog description (run lifecycle newScheduler)
     = logHeader (length (finishedLog (run lifecycle newScheduler)))
         +:+ foldr (λ t rest, description t +:+ printedSegment t +:+ endl +:+ rest)
               EmptyString (finishedLog (run lifecycle newScheduler))).
Proof.
  apply (nonzero_clock_logs_every_duration description lifecycle).
  repeat constructor; lia.
Defined.

Lemma transition_moves_exactly_one_witness :
  S (length (stagedTasks (startTask 2 7 (run two_added newScheduler)).1))
  = length (stagedTasks (run two_added newScheduler))
  ∧ length (activeTasks (startTask 2 7 (run two_added newScheduler)).1)
  = S (length (activeTasks (run two_added newScheduler))).
Proof.
  apply (transition_moves_exactly_one two_added 2 7).
  - by vm_compute.
  - apply list_elem_of_further, list_elem_of_here.
Defined.
